(** * taosocks: the accept path of [src/win/server_socket.h]

    A shallow embedding of [AcceptIOContext] and [ServerSocket].

    Conventions.
    - A [SOCKET] is a pointer-sized unsigned integer, kept as a [Z];
      [INVALID_SOCKET] is [(SOCKET)(~0)].
    - The [int] counter [_next_id] is a 32-bit two's complement integer,
      kept as a [Z] with the wrap-around written out ([wrap_int]).
    - [char buf[N]] is a [list byte] of length [N]; a pointer into [buf]
      is its offset.
    - Calls that leave the program (Winsock, the registered handler) are
      recorded in a log carried by the state the code runs in; what the
      operating system answers is read from that state as well.
    - [assert] ends the run ([Aborted]) unless the build defines
      [NDEBUG], in which case it is compiled away. *)

From Stdlib Require Import ZArith List Lia Bool.
From Stdlib.Strings Require Import Byte.
Import ListNotations.

Local Open Scope Z_scope.

(** ** Winsock types and constants *)

Definition SOCKET := Z.

Definition ptr_bits : Z := 64.

(* #define INVALID_SOCKET (SOCKET)(~0) *)
Definition INVALID_SOCKET : SOCKET := Z.ones ptr_bits.

Definition AF_INET : Z := 2.
Definition SOCK_STREAM : Z := 1.
Definition IPPROTO_TCP : Z := 6.
Definition WSA_FLAG_OVERLAPPED : Z := 1.

(* struct sockaddr_in { short sin_family; u_short sin_port;
                        struct in_addr sin_addr; char sin_zero[8]; } *)
Definition sizeof_sin_family : nat := 2.
Definition sizeof_sin_port : nat := 2.
Definition sizeof_sin_addr : nat := 4.
Definition sizeof_sin_zero : nat := 8.

Definition sizeof_SOCKADDR_IN : nat :=
  (sizeof_sin_family + sizeof_sin_port + sizeof_sin_addr + sizeof_sin_zero)%nat.

(** The bytes of one [SOCKADDR_IN] object. *)
Definition sockaddr_bytes := list byte.

Definition is_sockaddr_in (a : sockaddr_bytes) : Prop :=
  length a = sizeof_SOCKADDR_IN.

(** The result of a Winsock call that reports through a [BOOL] and
    [WSAGetLastError()]. *)
Record WSABoolRet := mkWSABoolRet {
  br_ok : bool;
  br_code : Z
}.

Definition WSA_IO_PENDING : Z := 997.

(** Modelled from the spec: [WSARet] of [winsock_helper.h], which is not
    among the sources.  Section 4.2 names the three results of a
    submission: completed immediately, pending, submission failed. *)
Inductive WSARet :=
| Completed
| Pending
| Failed (code : Z).

(** Modelled from the spec: the conversion [WSABoolRet -> WSARet] that
    [Accept] relies on in [return R;]. *)
Definition WSARet_of_bool (r : WSABoolRet) : WSARet :=
  if br_ok r then Completed
  else if br_code r =? WSA_IO_PENDING then Pending
  else Failed (br_code r).

(** ** The operation contexts *)

Module OpType.
Inductive t := Accept | Read | Write.
End OpType.

(** [BaseIOContext] comes from [base_socket.h]; the accept path uses its
    kind tag and the address of its [OVERLAPPED] block, which stands for
    the context itself. *)
Record BaseIOContext := mkBase {
  optype : OpType.t
}.

Record AcceptIOContext := mkAcceptIOContext {
  base : BaseIOContext;
  fd : SOCKET;
  buf : list byte
}.

(* sizeof(SOCKADDR_IN) + 16 *)
Definition addr_slot : nat := (sizeof_SOCKADDR_IN + 16)%nat.

(* char buf[(sizeof(SOCKADDR_IN) + 16) * 2]; *)
Definition sizeof_buf : nat := ((sizeof_SOCKADDR_IN + 16) * 2)%nat.

(** The argument list of one [AcceptEx] call. *)
Record AcceptExArgs := mkAcceptExArgs {
  sListenSocket : SOCKET;
  sAcceptSocket : SOCKET;
  lpOutputBuffer : list byte;
  dwReceiveDataLength : nat;
  dwLocalAddressLength : nat;
  dwRemoteAddressLength : nat
}.

(** The accepted connection, [ClientSocket] of [client_socket.h]. *)
Record ClientSocket := mkClientSocket {
  cs_id : Z;
  cs_fd : SOCKET;
  cs_local : sockaddr_bytes;
  cs_remote : sockaddr_bytes
}.

(** ** The environment *)

Inductive Call :=
| CallWSASocket (af type protocol flags : Z) (ret : SOCKET)
| CallAcceptEx (args : AcceptExArgs) (ret : WSABoolRet)
| CallHandler (c : ClientSocket).

(** [sock_pool]: the handles the system can still give out; once it is
    empty, [WSASocket] answers [INVALID_SOCKET].  [accept_answers]: what
    the next [AcceptEx] calls answer; once it is empty, the answer is the
    usual one, [FALSE] with [WSA_IO_PENDING]. *)
Record OS := mkOS {
  sock_pool : list SOCKET;
  accept_answers : list WSABoolRet;
  log : list Call
}.

Inductive outcome (A : Type) :=
| Returned (a : A) (w : OS)
| Aborted (w : OS).

Arguments Returned {A} a w.
Arguments Aborted {A} w.

Definition M (A : Type) := OS -> outcome A.

Definition ret {A} (a : A) : M A := fun w => Returned a w.

Definition bind {A B} (m : M A) (k : A -> M B) : M B :=
  fun w => match m w with
           | Returned a w' => k a w'
           | Aborted w' => Aborted w'
           end.

Definition abort {A} : M A := fun w => Aborted w.

Notation "x <- c ;; k" := (bind c (fun x => k))
  (at level 61, c at next level, right associativity).
Notation "c ;;; k" := (bind c (fun _ => k))
  (at level 61, right associativity).

Definition final_os {A} (o : outcome A) : OS :=
  match o with
  | Returned _ w => w
  | Aborted w => w
  end.

Definition record_call (c : Call) (w : OS) : OS :=
  mkOS (sock_pool w) (accept_answers w) (log w ++ [c]).

(* ::WSASocket(af, type, protocol, nullptr, 0, flags) *)
Definition WSASocket (af type protocol flags : Z) : M SOCKET :=
  fun w =>
    match sock_pool w with
    | [] =>
        Returned INVALID_SOCKET
          (record_call (CallWSASocket af type protocol flags INVALID_SOCKET) w)
    | s :: rest =>
        Returned s
          (record_call (CallWSASocket af type protocol flags s)
             (mkOS rest (accept_answers w) (log w)))
    end.

Definition io_pending : WSABoolRet := mkWSABoolRet false WSA_IO_PENDING.

(* WSA::AcceptEx(listen, accept, buf, recv, local, remote, &bytes, &ov) *)
Definition WSA_AcceptEx (args : AcceptExArgs) : M WSABoolRet :=
  fun w =>
    match accept_answers w with
    | [] => Returned io_pending (record_call (CallAcceptEx args io_pending) w)
    | r :: rest =>
        Returned r
          (record_call (CallAcceptEx args r) (mkOS (sock_pool w) rest (log w)))
    end.

(* assert(c) *)
Definition c_assert (ndebug : bool) (c : bool) : M unit :=
  if ndebug then ret tt else if c then ret tt else abort.

(** ** [AcceptIOContext] *)

(** The constructor.  [buf] is left uninitialised by the C++ code; its
    bytes are taken to be zero here, and no result below depends on them. *)
Definition AcceptIOContext_new (ndebug : bool) : M AcceptIOContext :=
  s <- WSASocket AF_INET SOCK_STREAM IPPROTO_TCP WSA_FLAG_OVERLAPPED ;;
  c_assert ndebug (negb (s =? INVALID_SOCKET)) ;;;
  ret (mkAcceptIOContext (mkBase OpType.Accept) s (repeat x00 sizeof_buf)).

Definition Accept_args (io : AcceptIOContext) (listen : SOCKET) : AcceptExArgs :=
  mkAcceptExArgs listen (fd io) (buf io)
    0 (sizeof_SOCKADDR_IN + 16) (sizeof_SOCKADDR_IN + 16).

Definition Accept (io : AcceptIOContext) (listen : SOCKET) : M WSARet :=
  R <- WSA_AcceptEx (Accept_args io listen) ;;
  ret (WSARet_of_bool R).

(** ** The address block of a completed accept *)

Definition read_bytes (off n : nat) (b : list byte) : list byte :=
  firstn n (skipn off b).

Definition write_bytes (off : nat) (data b : list byte) : list byte :=
  firstn off b ++ data ++ skipn (off + length data) b.

Section Layout.

(** Where, inside a slot, the system stores the address.  The format of
    a slot is private to the system; the 16 extra bytes that [AcceptEx]
    demands per slot are what it may use in front of the address. *)
Variable hdr : nat.

Definition slot_fits (len : nat) (a : sockaddr_bytes) : bool :=
  (hdr + length a <=? len)%nat.

(** Modelled from the spec: what the system leaves in the output buffer
    of an [AcceptEx] call when it completes with the two addresses
    [local] and [remote]: after the received data, one slot per
    address.  [None] when the slots do not hold the addresses or the
    buffer does not hold the slots. *)
Definition AcceptEx_complete (args : AcceptExArgs)
    (local remote : sockaddr_bytes) : option (list byte) :=
  let b := lpOutputBuffer args in
  let recv := dwReceiveDataLength args in
  let llen := dwLocalAddressLength args in
  let rlen := dwRemoteAddressLength args in
  if slot_fits llen local && slot_fits rlen remote
     && (recv + llen + rlen <=? length b)%nat
  then Some (write_bytes (recv + llen + hdr) remote
               (write_bytes (recv + hdr) local b))
  else None.

(** Modelled from the spec: [WSA::GetAcceptExSockAddrs] of
    [winsock_helper.h], which is not among the sources.  It answers, for
    each of the two addresses, a pointer into the buffer and a length. *)
Definition WSA_GetAcceptExSockAddrs (b : list byte) (recv llen rlen : nat)
  : (nat * nat) * (nat * nat) :=
  ((recv + hdr, sizeof_SOCKADDR_IN),
   (recv + llen + hdr, sizeof_SOCKADDR_IN))%nat.

(* void GetAddresses(local, remote): the two out-pointers, as a pair *)
Definition GetAddresses (io : AcceptIOContext) : nat * nat :=
  let '((local, len), (remote, len')) :=
    WSA_GetAcceptExSockAddrs (buf io)
      0 (sizeof_SOCKADDR_IN + 16) (sizeof_SOCKADDR_IN + 16) in
  (local, remote).

(** [*local] and [*remote], read through the pointers. *)
Definition deref_SOCKADDR_IN (io : AcceptIOContext) (p : nat) : sockaddr_bytes :=
  read_bytes p sizeof_SOCKADDR_IN (buf io).

End Layout.

(** The context after the system has completed its accept. *)
Definition with_buf (io : AcceptIOContext) (b : list byte) : AcceptIOContext :=
  mkAcceptIOContext (base io) (fd io) b.

(** ** [ServerSocket] *)

(* std::function taking a ClientSocket pointer and returning void *)
Definition Handler := ClientSocket -> M unit.

Record ServerSocket := mkServerSocket {
  listen_fd : SOCKET;
  _onAccepted : option Handler;
  _next_id : Z
}.

(* int *)
Definition INT_MAX : Z := 2 ^ 31 - 1.
Definition INT_MIN : Z := - 2 ^ 31.

Definition wrap_int (z : Z) : Z := (z + 2 ^ 31) mod 2 ^ 32 - 2 ^ 31.

(** The member initialisers of the constructor: [BaseSocket(INVALID_SOCKET)],
    an empty [_onAccepted], [_next_id(0)]. *)
Definition ServerSocket_init : ServerSocket :=
  mkServerSocket INVALID_SOCKET None 0.

(** Modelled from the spec: [BaseSocket::CreateSocket] of [base_socket.h],
    which is not among the sources; it gives the acceptor the socket it
    will listen on. *)
Definition CreateSocket (s : ServerSocket) : M ServerSocket :=
  l <- WSASocket AF_INET SOCK_STREAM IPPROTO_TCP WSA_FLAG_OVERLAPPED ;;
  ret (mkServerSocket l (_onAccepted s) (_next_id s)).

Definition ServerSocket_new : M ServerSocket :=
  CreateSocket ServerSocket_init.

(** Modelled from the spec: the body of [GenId], declared in the header
    and defined in a file that is not among the sources.  It hands out the
    counter and steps it: [return _next_id++;] on the [int] member. *)
Definition GenId (s : ServerSocket) : Z * ServerSocket :=
  (_next_id s,
   mkServerSocket (listen_fd s) (_onAccepted s) (wrap_int (_next_id s + 1))).

(** Modelled from the spec: the body of [OnAccept], declared in the
    header only.  It stores the handler in the one slot. *)
Definition OnAccept (s : ServerSocket) (onAccepted : Handler) : ServerSocket :=
  mkServerSocket (listen_fd s) (Some onAccepted) (_next_id s).

(** Calling a [std::function]: an empty one throws, and nothing on this
    path catches. *)
Definition invoke (f : option Handler) (c : ClientSocket) : M unit :=
  match f with
  | Some h => fun w => h c (record_call (CallHandler c) w)
  | None => abort
  end.

(** Modelled from the spec: the body of [_Accept], declared in the header
    only.  It creates a fresh context and submits it on the listening
    socket. *)
Definition _Accept (ndebug : bool) (s : ServerSocket) : M (AcceptIOContext * WSARet) :=
  io <- AcceptIOContext_new ndebug ;;
  r <- Accept io (listen_fd s) ;;
  ret (io, r).

(** Modelled from the spec: the body of [_OnAccept], declared in the
    header only; the success path of section 4.3: resolve the addresses,
    build the connection with a fresh id, submit the replacement, then
    call the handler. *)
Definition _OnAccept (ndebug : bool) (hdr : nat)
    (s : ServerSocket) (io : AcceptIOContext) : M ServerSocket :=
  let '(local, remote) := GetAddresses hdr io in
  let '(id, s') := GenId s in
  let client :=
    mkClientSocket id (fd io)
      (deref_SOCKADDR_IN io local) (deref_SOCKADDR_IN io remote) in
  _Accept ndebug s' ;;;
  invoke (_onAccepted s') client ;;;
  ret s'.

(** The acceptor's life as the sequence of calls made on it. *)
Inductive Op :=
| OpGenId
| OpOnAccept (h : Handler).

(** Runs the calls in order; answers the ids handed out, oldest first. *)
Fixpoint run (ops : list Op) (s : ServerSocket) : list Z * ServerSocket :=
  match ops with
  | [] => ([], s)
  | OpGenId :: ops' =>
      let '(id, s1) := GenId s in
      let '(ids, s2) := run ops' s1 in
      (id :: ids, s2)
  | OpOnAccept h :: ops' => run ops' (OnAccept s h)
  end.

Definition is_GenId (o : Op) : bool :=
  match o with OpGenId => true | _ => false end.

Definition calls_of_GenId (ops : list Op) : nat :=
  length (filter is_GenId ops).

(** Each id is greater than every id before it. *)
Definition strictly_increasing (l : list Z) : Prop :=
  forall i j x y, (i < j)%nat -> nth_error l i = Some x ->
                  nth_error l j = Some y -> x < y.

(** ** Sample data *)

(** A system that has no handle left and has answered nothing yet. *)
Definition os_exhausted : OS := mkOS [] [] [].

(** A system with handles to give. *)
Definition os_fresh : OS := mkOS [100; 104; 108] [] [].

Definition call_socket (s : SOCKET) : Call :=
  CallWSASocket AF_INET SOCK_STREAM IPPROTO_TCP WSA_FLAG_OVERLAPPED s.

(** 127.0.0.1:1080 and 10.0.0.7:51234, as [SOCKADDR_IN] bytes. *)
Definition addr_a : sockaddr_bytes :=
  [x02; x00; x04; x38; x7f; x00; x00; x01;
   x00; x00; x00; x00; x00; x00; x00; x00].

Definition addr_b : sockaddr_bytes :=
  [x02; x00; xc8; x22; x0a; x00; x00; x07;
   x00; x00; x00; x00; x00; x00; x00; x00].

Definition io_sample : AcceptIOContext :=
  mkAcceptIOContext (mkBase OpType.Accept) 112 (repeat xff sizeof_buf).

(** The buffer of [io] once the system has stored [local] and [remote]
    in the two slots that [Accept] announced. *)
Definition filled (hdr : nat) (io : AcceptIOContext)
    (local remote : sockaddr_bytes) : list byte :=
  write_bytes (addr_slot + hdr) remote (write_bytes hdr local (buf io)).

(** [n] calls of [GenId] from a counter that stands at [wrap_int z]. *)
Definition ids_from (z : Z) (n : nat) : list Z :=
  map (fun k => wrap_int (z + Z.of_nat k)) (seq 0 n).

Definition acceptor0 : ServerSocket := mkServerSocket 100 None 0.

Definition noop_handler : Handler := fun _ => ret tt.

(** The handler of the last [OnAccept] among [ops], or [d] when there is
    none: what "last registration wins" asks for. *)
Fixpoint last_handler (ops : list Op) (d : option Handler) : option Handler :=
  match ops with
  | [] => d
  | OpGenId :: ops' => last_handler ops' d
  | OpOnAccept h :: ops' => last_handler ops' (Some h)
  end.


(** A completed accept on a running acceptor: the context [io_sample],
    filled by the system with [addr_a] and [addr_b], comes back while the
    handler [noop_handler] is registered. *)
Definition io_completed : AcceptIOContext :=
  with_buf io_sample
    (write_bytes (addr_slot + 4) addr_b
       (write_bytes 4 addr_a (buf io_sample))).

(** ** Sequences of constructions and submissions *)

(** [n] contexts constructed one after the other, oldest first. *)
Fixpoint new_contexts (ndebug : bool) (n : nat) : M (list AcceptIOContext) :=
  match n with
  | O => ret []
  | S n' =>
      io <- AcceptIOContext_new ndebug ;;
      ios <- new_contexts ndebug n' ;;
      ret (io :: ios)
  end.

(** Every context of [ios] submitted with [Accept] on [listen], in order. *)
Fixpoint submit_all (ios : list AcceptIOContext) (listen : SOCKET)
  : M (list WSARet) :=
  match ios with
  | [] => ret []
  | io :: ios' =>
      r <- Accept io listen ;;
      rs <- submit_all ios' listen ;;
      ret (r :: rs)
  end.

(** What the system answers to the next [n] [AcceptEx] calls. *)
Definition next_answers (n : nat) (w : OS) : list WSABoolRet :=
  firstn n (accept_answers w)
    ++ repeat io_pending (n - length (accept_answers w)).

(** The ids that [n] calls of a function with the signature of [GenId]
    hand out, oldest first. *)
Fixpoint gen_ids (gen : ServerSocket -> Z * ServerSocket) (n : nat)
    (s : ServerSocket) : list Z :=
  match n with
  | O => []
  | S n' => fst (gen s) :: gen_ids gen n' (snd (gen s))
  end.

Definition valid_socket (s : SOCKET) : Prop := s <> INVALID_SOCKET.

(** * Properties *)

(** ** Bytes *)

Lemma write_bytes_length off data b :
  (off + length data <= length b)%nat ->
  length (write_bytes off data b) = length b.
Proof.
  intros H. unfold write_bytes.
  rewrite !length_app, length_firstn, length_skipn. lia.
Qed.

Lemma read_write_same off data b :
  (off <= length b)%nat ->
  read_bytes off (length data) (write_bytes off data b) = data.
Proof.
  intros H. unfold read_bytes, write_bytes.
  rewrite skipn_app, length_firstn, Nat.min_l by lia.
  rewrite skipn_all2 by (rewrite length_firstn; lia).
  replace (off - off)%nat with 0%nat by lia. simpl.
  rewrite firstn_app, firstn_all, Nat.sub_diag. simpl.
  apply app_nil_r.
Qed.

(** A later write leaves what lies in front of it untouched. *)
Lemma read_write_before off n off' data b :
  (off + n <= off')%nat -> (off' <= length b)%nat ->
  read_bytes off n (write_bytes off' data b) = read_bytes off n b.
Proof.
  intros H1 H2. unfold read_bytes, write_bytes.
  rewrite skipn_app, length_firstn, Nat.min_l by lia.
  replace (off - off')%nat with 0%nat by lia. simpl.
  rewrite firstn_app, length_skipn, length_firstn, Nat.min_l by lia.
  replace (n - (off' - off))%nat with 0%nat by lia. simpl.
  rewrite app_nil_r, skipn_firstn_comm, firstn_firstn, Nat.min_l by lia.
  reflexivity.
Qed.

Lemma AcceptIOContext_new_run ndebug w :
  let s := hd INVALID_SOCKET (sock_pool w) in
  let w' := record_call
              (CallWSASocket AF_INET SOCK_STREAM IPPROTO_TCP WSA_FLAG_OVERLAPPED s)
              (mkOS (tl (sock_pool w)) (accept_answers w) (log w)) in
  AcceptIOContext_new ndebug w =
    if ndebug || negb (s =? INVALID_SOCKET)
    then Returned (mkAcceptIOContext (mkBase OpType.Accept) s (repeat x00 sizeof_buf)) w'
    else Aborted w'.
Proof.
  unfold AcceptIOContext_new, bind, WSASocket, c_assert, ret, abort.
  destruct w as [pool ans lg]; destruct pool as [|s pool]; simpl;
    destruct ndebug; simpl; try reflexivity.
  destruct (s =? INVALID_SOCKET); reflexivity.
Qed.

Lemma Accept_run io listen w :
  let R := hd io_pending (accept_answers w) in
  Accept io listen w =
    Returned (WSARet_of_bool R)
      (record_call (CallAcceptEx (Accept_args io listen) R)
         (mkOS (sock_pool w) (tl (accept_answers w)) (log w))).
Proof.
  unfold Accept, bind, WSA_AcceptEx, ret.
  destruct w as [pool ans lg]; destruct ans; reflexivity.
Qed.

(** ** Creating an accept context *)

(** C1, as the specification words it, fails: with no handle left and
    assertions compiled in, the constructor does not come back with an
    error for the acceptor; the run ends at the [assert]. *)
Lemma AcceptIOContext_new_exhausted_aborts :
  sock_pool os_exhausted = [] /\
  AcceptIOContext_new false os_exhausted =
    Aborted (mkOS [] [] [call_socket INVALID_SOCKET]) /\
  ~ (exists io w', AcceptIOContext_new false os_exhausted = Returned io w').
Proof.
  split; [reflexivity|]. split; [reflexivity|].
  intros (io & w' & H). discriminate H.
Qed.

(** C1, amended: when the system has no socket to give, the constructor
    reports nothing.  It logs the one [WSASocket] call; then a build with
    assertions ends the run at the [assert], and a build with [NDEBUG]
    returns a context whose [fd] is [INVALID_SOCKET]. *)
Theorem AcceptIOContext_new_exhausted ndebug w :
  sock_pool w = [] ->
  AcceptIOContext_new ndebug w =
    if ndebug
    then Returned
           (mkAcceptIOContext (mkBase OpType.Accept) INVALID_SOCKET
              (repeat x00 sizeof_buf))
           (record_call (call_socket INVALID_SOCKET) w)
    else Aborted (record_call (call_socket INVALID_SOCKET) w).
Proof.
  intros H. rewrite AcceptIOContext_new_run.
  destruct w as [pool ans lg]; simpl in H; subst pool.
  destruct ndebug; reflexivity.
Qed.

Lemma AcceptIOContext_new_exhausted_witness :
  AcceptIOContext_new false os_exhausted =
    Aborted (record_call (call_socket INVALID_SOCKET) os_exhausted).
Proof.
  exact (AcceptIOContext_new_exhausted false os_exhausted eq_refl).
Defined.

(** C9, as worded, fails in a build with [NDEBUG]: there the [assert] is
    compiled away, and with no handle left the constructor returns a
    context whose [fd] is [INVALID_SOCKET]. *)
Lemma AcceptIOContext_new_NDEBUG_invalid_fd :
  AcceptIOContext_new true os_exhausted =
    Returned
      (mkAcceptIOContext (mkBase OpType.Accept) INVALID_SOCKET
         (repeat x00 sizeof_buf))
      (mkOS [] [] [call_socket INVALID_SOCKET]) /\
  ~ (forall ndebug w io w',
       AcceptIOContext_new ndebug w = Returned io w' ->
       fd io <> INVALID_SOCKET).
Proof.
  split; [reflexivity|].
  intros H.
  apply (H true os_exhausted _ _ eq_refl). reflexivity.
Qed.

(** C9, amended: in a build with assertions compiled in ([NDEBUG] not
    defined), a constructor that returns has a valid [fd], and this is
    the socket every later [Accept] on the context hands to [AcceptEx];
    the only other way the constructor ends is the abort at the
    [assert], right after a [WSASocket] call that answered
    [INVALID_SOCKET]: no result reports the failure. *)
Theorem AcceptIOContext_new_fd_valid w :
  match AcceptIOContext_new false w with
  | Returned io w' =>
      fd io <> INVALID_SOCKET /\
      log w' = log w ++ [call_socket (fd io)] /\
      forall listen w2,
        exists R,
          log (final_os (Accept io listen w2)) =
            log w2 ++ [CallAcceptEx (Accept_args io listen) R] /\
          sAcceptSocket (Accept_args io listen) = fd io /\
          sAcceptSocket (Accept_args io listen) <> INVALID_SOCKET
  | Aborted w' =>
      log w' = log w ++ [call_socket INVALID_SOCKET]
  end.
Proof.
  rewrite AcceptIOContext_new_run. cbv zeta.
  destruct (Z.eqb_spec (hd INVALID_SOCKET (sock_pool w)) INVALID_SOCKET) as [E|E];
    simpl.
  - rewrite E. reflexivity.
  - repeat split; try assumption.
    intros listen w2. rewrite Accept_run.
    eexists. repeat split. simpl. assumption.
Qed.

(** ** Submitting the accept *)

(** C5: [Accept] makes exactly one [AcceptEx] call.  The call names the
    given listening socket, the context's own socket and the context's
    buffer, asks for no received data, and gives a slot of
    [sizeof(SOCKADDR_IN) + 16] bytes to each of the two addresses, so both
    come with the one completion.  The answer of the call is what
    [Accept] returns. *)
Theorem Accept_submits io listen w :
  exists R w',
    Accept io listen w = Returned (WSARet_of_bool R) w' /\
    log w' = log w ++ [CallAcceptEx (Accept_args io listen) R] /\
    sListenSocket (Accept_args io listen) = listen /\
    sAcceptSocket (Accept_args io listen) = fd io /\
    lpOutputBuffer (Accept_args io listen) = buf io /\
    dwReceiveDataLength (Accept_args io listen) = 0%nat /\
    dwLocalAddressLength (Accept_args io listen) = (sizeof_SOCKADDR_IN + 16)%nat /\
    dwRemoteAddressLength (Accept_args io listen) = (sizeof_SOCKADDR_IN + 16)%nat /\
    (0 < dwLocalAddressLength (Accept_args io listen))%nat /\
    (0 < dwRemoteAddressLength (Accept_args io listen))%nat.
Proof.
  rewrite Accept_run. do 2 eexists.
  split; [reflexivity|]. simpl.
  repeat split; unfold sizeof_SOCKADDR_IN; lia.
Qed.

(** ** The buffer *)

(** C7: the buffer of a context that the constructor returns is
    [(sizeof(SOCKADDR_IN) + 16) * 2] bytes long: two slots, each one
    address plus 16 bytes, which is the sum of the two lengths that
    [Accept] announces to [AcceptEx]. *)
Theorem buf_size ndebug w io w' :
  AcceptIOContext_new ndebug w = Returned io w' ->
  length (buf io) = ((sizeof_SOCKADDR_IN + 16) * 2)%nat /\
  length (buf io) = (2 * addr_slot)%nat /\
  forall listen,
    length (buf io) =
      (dwReceiveDataLength (Accept_args io listen)
       + dwLocalAddressLength (Accept_args io listen)
       + dwRemoteAddressLength (Accept_args io listen))%nat.
Proof.
  rewrite AcceptIOContext_new_run. cbv zeta.
  destruct (ndebug || _); [|discriminate].
  intros H. injection H as <- _.
  repeat split; reflexivity.
Qed.

Lemma buf_size_witness :
  exists io w',
    AcceptIOContext_new false os_fresh = Returned io w' /\
    length (buf io) = ((sizeof_SOCKADDR_IN + 16) * 2)%nat.
Proof.
  eexists; eexists.
  split; [reflexivity|].
  exact (proj1 (buf_size false os_fresh _ _ eq_refl)).
Defined.

(** ** Resolving the addresses *)

Section RoundTrip.

Variable hdr : nat.
Hypothesis hdr_in_padding : (hdr <= 16)%nat.

Variable io : AcceptIOContext.
Hypothesis io_buf : length (buf io) = sizeof_buf.

Variables local remote : sockaddr_bytes.
Hypothesis local_size : is_sockaddr_in local.
Hypothesis remote_size : is_sockaddr_in remote.

Lemma AcceptEx_complete_Accept listen :
  AcceptEx_complete hdr (Accept_args io listen) local remote =
    Some (filled hdr io local remote).
Proof using hdr_in_padding io_buf local_size remote_size.
  unfold AcceptEx_complete, slot_fits, filled, Accept_args.
  cbn [lpOutputBuffer dwReceiveDataLength dwLocalAddressLength
       dwRemoteAddressLength].
  rewrite local_size, remote_size, io_buf.
  change sizeof_SOCKADDR_IN with 16%nat.
  change sizeof_buf with 64%nat. change addr_slot with 32%nat.
  rewrite !(proj2 (Nat.leb_le _ _)) by lia.
  cbn [andb]. do 2 f_equal.
Qed.

Lemma filled_length : length (filled hdr io local remote) = sizeof_buf.
Proof using hdr_in_padding io_buf local_size remote_size.
  unfold filled.
  assert (L : length (write_bytes hdr local (buf io)) = sizeof_buf).
  { rewrite write_bytes_length; [exact io_buf|].
    rewrite local_size, io_buf.
    change sizeof_SOCKADDR_IN with 16%nat. change sizeof_buf with 64%nat.
    lia. }
  rewrite write_bytes_length; [exact L|].
  rewrite remote_size, L.
  change sizeof_SOCKADDR_IN with 16%nat.
  change sizeof_buf with 64%nat. change addr_slot with 32%nat.
  lia.
Qed.

Lemma filled_local :
  read_bytes hdr sizeof_SOCKADDR_IN (filled hdr io local remote) = local.
Proof using hdr_in_padding io_buf local_size remote_size.
  unfold filled.
  rewrite read_write_before.
  - rewrite <- local_size. apply read_write_same.
    rewrite io_buf. change sizeof_buf with 64%nat. lia.
  - change sizeof_SOCKADDR_IN with 16%nat. change addr_slot with 32%nat.
    lia.
  - rewrite write_bytes_length; rewrite ?local_size, io_buf;
      change sizeof_SOCKADDR_IN with 16%nat;
      change sizeof_buf with 64%nat; change addr_slot with 32%nat; lia.
Qed.

Lemma filled_remote :
  read_bytes (addr_slot + hdr) sizeof_SOCKADDR_IN (filled hdr io local remote) = remote.
Proof using hdr_in_padding io_buf local_size remote_size.
  unfold filled.
  rewrite <- remote_size. apply read_write_same.
  rewrite write_bytes_length; rewrite ?local_size, io_buf;
    change sizeof_SOCKADDR_IN with 16%nat;
    change sizeof_buf with 64%nat; change addr_slot with 32%nat; lia.
Qed.

End RoundTrip.

(** C6: take a context with its buffer, submit it with [Accept], and let
    the system complete the accept with the addresses [local] and
    [remote], laid out as that submission asked (no received data, two
    slots of [sizeof(SOCKADDR_IN) + 16] bytes).  Then the two pointers
    that [GetAddresses] answers lead to exactly the bytes of [local] and
    of [remote]. *)
Theorem GetAddresses_roundtrip hdr io listen local remote :
  (hdr <= 16)%nat ->
  length (buf io) = sizeof_buf ->
  is_sockaddr_in local ->
  is_sockaddr_in remote ->
  exists b,
    AcceptEx_complete hdr (Accept_args io listen) local remote = Some b /\
    length b = ((sizeof_SOCKADDR_IN + 16) * 2)%nat /\
    deref_SOCKADDR_IN (with_buf io b)
      (fst (GetAddresses hdr (with_buf io b))) = local /\
    deref_SOCKADDR_IN (with_buf io b)
      (snd (GetAddresses hdr (with_buf io b))) = remote.
Proof.
  intros Hh Hb Hl Hr.
  eexists. split; [apply AcceptEx_complete_Accept; assumption|].
  split; [apply (filled_length hdr Hh io Hb local remote Hl Hr)|].
  unfold deref_SOCKADDR_IN, GetAddresses, WSA_GetAcceptExSockAddrs; simpl fst;
    simpl snd; simpl buf.
  split.
  - apply (filled_local hdr Hh io Hb local remote Hl Hr).
  - apply (filled_remote hdr Hh io Hb local remote Hl Hr).
Qed.

Lemma GetAddresses_roundtrip_witness :
  exists b,
    AcceptEx_complete 4 (Accept_args io_sample 96) addr_a addr_b = Some b /\
    length b = ((sizeof_SOCKADDR_IN + 16) * 2)%nat /\
    deref_SOCKADDR_IN (with_buf io_sample b)
      (fst (GetAddresses 4 (with_buf io_sample b))) = addr_a /\
    deref_SOCKADDR_IN (with_buf io_sample b)
      (snd (GetAddresses 4 (with_buf io_sample b))) = addr_b.
Proof.
  apply (GetAddresses_roundtrip 4 io_sample 96 addr_a addr_b).
  - lia.
  - reflexivity.
  - reflexivity.
  - reflexivity.
Defined.

(** The layout matters: read with slots of another size, the same buffer
    does not give the remote address back. *)
Example other_layout_reads_elsewhere :
  let b := write_bytes (addr_slot + 4) addr_b
             (write_bytes 4 addr_a (repeat xff sizeof_buf)) in
  let '(_, (remote, _)) := WSA_GetAcceptExSockAddrs 4 b 0 16 16 in
  read_bytes remote sizeof_SOCKADDR_IN b <> addr_b.
Proof. vm_compute. discriminate. Qed.

(** ** The connection-id counter *)

Lemma wrap_int_small z : INT_MIN <= z <= INT_MAX -> wrap_int z = z.
Proof.
  unfold INT_MIN, INT_MAX, wrap_int. intros H.
  rewrite Z.mod_small; lia.
Qed.

Lemma wrap_int_range z : INT_MIN <= wrap_int z <= INT_MAX.
Proof.
  unfold INT_MIN, INT_MAX, wrap_int.
  pose proof (Z.mod_pos_bound (z + 2 ^ 31) (2 ^ 32) ltac:(lia)). lia.
Qed.

Lemma wrap_int_step z : wrap_int (wrap_int z + 1) = wrap_int (z + 1).
Proof.
  unfold wrap_int. f_equal.
  replace ((z + 2 ^ 31) mod 2 ^ 32 - 2 ^ 31 + 1 + 2 ^ 31)
    with ((z + 2 ^ 31) mod 2 ^ 32 + 1) by lia.
  rewrite Zplus_mod_idemp_l. f_equal. lia.
Qed.

Lemma wrap_int_period z : wrap_int (z + 2 ^ 32) = wrap_int z.
Proof.
  unfold wrap_int. f_equal.
  replace (z + 2 ^ 32 + 2 ^ 31) with (z + 2 ^ 31 + 1 * 2 ^ 32) by lia.
  apply Z.mod_add. lia.
Qed.

Lemma ids_from_S z n : ids_from z (S n) = wrap_int z :: ids_from (z + 1) n.
Proof.
  unfold ids_from. cbn [seq map]. rewrite Z.add_0_r. f_equal.
  rewrite <- seq_shift, map_map. apply map_ext.
  intros k. f_equal. lia.
Qed.

Lemma run_closed_form ops : forall s z,
  _next_id s = wrap_int z ->
  fst (run ops s) = ids_from z (calls_of_GenId ops) /\
  _next_id (snd (run ops s)) = wrap_int (z + Z.of_nat (calls_of_GenId ops)).
Proof.
  induction ops as [|o ops IH]; intros s z Hs.
  - cbn. rewrite Z.add_0_r. auto.
  - destruct o as [|h].
    + cbn [run]. unfold GenId.
      destruct (run ops _) as [ids s2] eqn:E.
      specialize (IH (mkServerSocket (listen_fd s) (_onAccepted s)
                        (wrap_int (_next_id s + 1))) (z + 1)).
      rewrite E in IH. cbn [fst snd _next_id] in IH |- *.
      destruct IH as [IH1 IH2].
      { rewrite Hs. apply wrap_int_step. }
      unfold calls_of_GenId in *. cbn [filter is_GenId length].
      rewrite ids_from_S, <- IH1, IH2, Hs. split; [reflexivity|].
      f_equal. lia.
    + cbn [run]. apply (IH (OnAccept s h) z). exact Hs.
Qed.

Lemma nth_error_ids_from z n i x :
  nth_error (ids_from z n) i = Some x ->
  (i < n)%nat /\ x = wrap_int (z + Z.of_nat i).
Proof.
  unfold ids_from. rewrite nth_error_map, nth_error_seq.
  destruct (Nat.ltb_spec i n) as [L|L]; cbn; [|discriminate].
  intros E. injection E as <-. auto.
Qed.

Lemma nth_error_ids_from_lt z n i :
  (i < n)%nat -> nth_error (ids_from z n) i = Some (wrap_int (z + Z.of_nat i)).
Proof.
  intros H. unfold ids_from. rewrite nth_error_map, nth_error_seq.
  apply Nat.ltb_lt in H. rewrite H. reflexivity.
Qed.

Lemma ids_from_0_increasing n :
  Z.of_nat n <= 2 ^ 31 -> strictly_increasing (ids_from 0 n).
Proof.
  intros Hn i j x y Hij Hx Hy.
  apply nth_error_ids_from in Hx, Hy.
  destruct Hx as [Hi ->], Hy as [Hj ->].
  rewrite !wrap_int_small; unfold INT_MIN, INT_MAX; lia.
Qed.

Lemma strictly_increasing_NoDup l : strictly_increasing l -> NoDup l.
Proof.
  intros H. apply NoDup_nth_error. intros i j Hi E.
  destruct (nth_error l i) as [x|] eqn:Ex;
    [|apply nth_error_Some in Hi; congruence].
  symmetry in E.
  destruct (Nat.lt_trichotomy i j) as [L|[L|L]]; [|assumption|].
  - pose proof (H i j x x L Ex E). lia.
  - pose proof (H j i x x L E Ex). lia.
Qed.

(** Whatever the body of [GenId] does, its result is an [int]: a strictly
    increasing run of [int] values has at most [2^32] members. *)
Lemma strictly_increasing_grows l : strictly_increasing l ->
  forall i x0 x, nth_error l 0 = Some x0 -> nth_error l i = Some x ->
                 x0 + Z.of_nat i <= x.
Proof.
  intros H i. induction i as [|i IH]; intros x0 x H0 Hx.
  - rewrite H0 in Hx. injection Hx as <-. lia.
  - destruct (nth_error l i) as [x'|] eqn:E.
    + pose proof (IH x0 x' H0 eq_refl).
      pose proof (H i (S i) x' x (Nat.lt_succ_diag_r i) E Hx). lia.
    + apply nth_error_None in E.
      assert (nth_error l (S i) <> None) by congruence.
      apply nth_error_Some in H1. lia.
Qed.

Lemma strictly_increasing_int_bound l :
  strictly_increasing l ->
  (forall x, In x l -> INT_MIN <= x <= INT_MAX) ->
  Z.of_nat (length l) <= 2 ^ 32.
Proof.
  intros H R. destruct l as [|x0 l']; [cbn; lia|].
  set (l := x0 :: l') in *.
  destruct (nth_error l (length l')) as [x|] eqn:E.
  - pose proof (strictly_increasing_grows l H (length l') x0 x eq_refl E).
    pose proof (R x0 (or_introl eq_refl)).
    pose proof (R x (nth_error_In _ _ E)).
    unfold INT_MIN, INT_MAX in *. subst l. cbn [length]. lia.
  - apply nth_error_None in E. subst l. cbn [length] in E. lia.
Qed.

Lemma calls_of_GenId_repeat n : calls_of_GenId (repeat OpGenId n) = n.
Proof.
  unfold calls_of_GenId. induction n as [|n IH]; [reflexivity|].
  cbn [repeat filter is_GenId length]. now rewrite IH.
Qed.

Lemma ServerSocket_new_run w :
  ServerSocket_new w =
    Returned (mkServerSocket (hd INVALID_SOCKET (sock_pool w)) None 0)
      (record_call (call_socket (hd INVALID_SOCKET (sock_pool w)))
         (mkOS (tl (sock_pool w)) (accept_answers w) (log w))).
Proof.
  unfold ServerSocket_new, CreateSocket, bind, WSASocket, ret.
  destruct w as [pool ans lg]; destruct pool; reflexivity.
Qed.

Lemma ServerSocket_new_counter w s w' :
  ServerSocket_new w = Returned s w' -> _next_id s = 0.
Proof.
  rewrite ServerSocket_new_run. intros H. injection H as <- _. reflexivity.
Qed.

Lemma ids_from_0_not_increasing n :
  2 ^ 31 < Z.of_nat n -> ~ strictly_increasing (ids_from 0 n).
Proof.
  intros Hn H.
  assert (L0 : (0 < n)%nat) by lia.
  assert (L1 : (Z.to_nat (2 ^ 31) < n)%nat) by lia.
  assert (L : (0 < Z.to_nat (2 ^ 31))%nat) by lia.
  pose proof (H _ _ _ _ L (nth_error_ids_from_lt 0 n _ L0)
                (nth_error_ids_from_lt 0 n _ L1)) as F.
  rewrite Z2Nat.id in F by lia.
  vm_compute in F. discriminate F.
Qed.

Lemma ids_from_0_repeat n :
  2 ^ 32 < Z.of_nat n -> ~ NoDup (ids_from 0 n).
Proof.
  intros Hn H.
  assert (L0 : (0 < n)%nat) by lia.
  assert (L1 : (Z.to_nat (2 ^ 32) < n)%nat) by lia.
  rewrite NoDup_nth_error in H.
  specialize (H 0%nat (Z.to_nat (2 ^ 32))).
  assert (E : 0%nat = Z.to_nat (2 ^ 32)); [|lia].
  apply H.
  - unfold ids_from. rewrite length_map, length_seq. exact L0.
  - rewrite (nth_error_ids_from_lt 0 n _ L0), (nth_error_ids_from_lt 0 n _ L1).
    rewrite Z2Nat.id by lia. f_equal.
Qed.

(** C2, as the specification words it, fails for a sequence of
    [2^31 + 1] calls on a freshly constructed acceptor: the last id,
    [INT_MIN], is below the first one, [0]. *)
Lemma GenId_not_increasing_forever :
  ServerSocket_new os_fresh =
    Returned acceptor0 (mkOS [104; 108] [] [call_socket 100]) /\
  ~ strictly_increasing
      (fst (run (repeat OpGenId (Z.to_nat (2 ^ 31 + 1))) acceptor0)).
Proof.
  split; [reflexivity|].
  rewrite (proj1 (run_closed_form _ acceptor0 0 eq_refl)).
  rewrite calls_of_GenId_repeat.
  apply ids_from_0_not_increasing. lia.
Qed.

(** C2, amended: on an acceptor that its constructor returned, the
    counter starts at 0, and over any sequence of calls in which [GenId]
    is called at most [2^31] times every id handed out is greater than
    every id handed out before it, so none comes twice; while fewer than
    [2^31] ids are out, the counter equals their number. *)
Theorem GenId_increasing_in_range w s w' ops :
  ServerSocket_new w = Returned s w' ->
  Z.of_nat (calls_of_GenId ops) <= 2 ^ 31 ->
  _next_id s = 0 /\
  strictly_increasing (fst (run ops s)) /\
  NoDup (fst (run ops s)) /\
  (Z.of_nat (calls_of_GenId ops) < 2 ^ 31 ->
   _next_id (snd (run ops s)) = Z.of_nat (calls_of_GenId ops)).
Proof.
  intros Hs Hn. apply ServerSocket_new_counter in Hs.
  destruct (run_closed_form ops s 0 Hs) as [E1 E2].
  assert (I : strictly_increasing (fst (run ops s))).
  { rewrite E1. apply ids_from_0_increasing. exact Hn. }
  repeat split; try assumption.
  - apply strictly_increasing_NoDup. exact I.
  - intros Hlt. rewrite E2. apply wrap_int_small.
    unfold INT_MIN, INT_MAX. lia.
Qed.

Lemma GenId_increasing_in_range_witness :
  fst (run [OpGenId; OpOnAccept noop_handler; OpGenId; OpGenId] acceptor0)
    = [0; 1; 2] /\
  strictly_increasing
    (fst (run [OpGenId; OpOnAccept noop_handler; OpGenId; OpGenId] acceptor0)).
Proof.
  split; [reflexivity|].
  apply (GenId_increasing_in_range os_fresh acceptor0
           (mkOS [104; 108] [] [call_socket 100])
           [OpGenId; OpOnAccept noop_handler; OpGenId; OpGenId]).
  - reflexivity.
  - vm_compute. discriminate.
Defined.

Lemma wrap_int_inj a b :
  0 <= a < 2 ^ 32 -> 0 <= b < 2 ^ 32 -> wrap_int a = wrap_int b -> a = b.
Proof.
  unfold wrap_int. intros Ha Hb H.
  assert (E : (a + 2 ^ 31) mod 2 ^ 32 = (b + 2 ^ 31) mod 2 ^ 32) by lia.
  clear H. revert E.
  change (2 ^ 32) with 4294967296 in *. change (2 ^ 31) with 2147483648.
  Z.div_mod_to_equations. lia.
Qed.

Lemma ids_from_0_NoDup n : Z.of_nat n <= 2 ^ 32 -> NoDup (ids_from 0 n).
Proof.
  intros Hn. apply NoDup_nth_error. intros i j Hi E.
  unfold ids_from in Hi. rewrite length_map, length_seq in Hi.
  rewrite (nth_error_ids_from_lt 0 n i Hi) in E. symmetry in E.
  apply nth_error_ids_from in E. destruct E as [Hj E].
  apply wrap_int_inj in E; lia.
Qed.

(** C10, as worded, fails: with [INT_MAX + 1] ids handed out, which is
    not below [INT_MAX], the ids still increase strictly and none has
    come twice. *)
Lemma GenId_guarantee_holds_past_INT_MAX :
  ServerSocket_new os_fresh =
    Returned acceptor0 (mkOS [104; 108] [] [call_socket 100]) /\
  ~ (Z.of_nat (calls_of_GenId (repeat OpGenId (Z.to_nat (INT_MAX + 1))))
       < INT_MAX) /\
  strictly_increasing
    (fst (run (repeat OpGenId (Z.to_nat (INT_MAX + 1))) acceptor0)) /\
  NoDup (fst (run (repeat OpGenId (Z.to_nat (INT_MAX + 1))) acceptor0)).
Proof.
  split; [reflexivity|].
  rewrite (proj1 (run_closed_form _ acceptor0 0 eq_refl)).
  rewrite calls_of_GenId_repeat.
  unfold INT_MAX.
  assert (I : strictly_increasing
                (ids_from 0 (Z.to_nat (2 ^ 31 - 1 + 1))))
    by (apply ids_from_0_increasing; lia).
  split; [lia|]. split; [exact I|].
  apply strictly_increasing_NoDup. exact I.
Qed.

(** C10, amended: [_next_id] is a 32-bit [int], and the counter is the
    number of ids handed out, wrapped modulo [2^32] into the [int]
    range.  It equals that number while at most [INT_MAX] ids are out;
    handing out id number [INT_MAX + 1] wraps it to [INT_MIN].  The ids
    handed out increase strictly exactly while there are at most
    [INT_MAX + 1] of them, and are pairwise different exactly while there
    are at most [2^32] of them. *)
Theorem GenId_int_overflow w s w' :
  ServerSocket_new w = Returned s w' ->
  forall ops,
    _next_id (snd (run ops s)) =
      (Z.of_nat (calls_of_GenId ops) + 2 ^ 31) mod 2 ^ 32 - 2 ^ 31 /\
    (Z.of_nat (calls_of_GenId ops) <= INT_MAX ->
     _next_id (snd (run ops s)) = Z.of_nat (calls_of_GenId ops)) /\
    (Z.of_nat (calls_of_GenId ops) = INT_MAX + 1 ->
     _next_id (snd (run ops s)) = INT_MIN) /\
    (strictly_increasing (fst (run ops s)) <->
     Z.of_nat (calls_of_GenId ops) <= INT_MAX + 1) /\
    (NoDup (fst (run ops s)) <->
     Z.of_nat (calls_of_GenId ops) <= 2 ^ 32).
Proof.
  intros Hs ops. apply ServerSocket_new_counter in Hs.
  destruct (run_closed_form ops s 0 Hs) as [E1 E2].
  rewrite E1, E2. unfold INT_MAX, INT_MIN.
  split; [reflexivity|]. split; [|split; [|split]].
  - intros Hn. apply wrap_int_small. unfold INT_MIN, INT_MAX. lia.
  - intros Hn. cbn [Z.add]. rewrite Hn. reflexivity.
  - split.
    + intros I.
      destruct (Z_le_gt_dec (Z.of_nat (calls_of_GenId ops)) (2 ^ 31 - 1 + 1))
        as [L|G]; [exact L|].
      exfalso. apply (ids_from_0_not_increasing (calls_of_GenId ops)); [lia|].
      exact I.
    + intros Hn. apply ids_from_0_increasing. lia.
  - split.
    + intros N.
      destruct (Z_le_gt_dec (Z.of_nat (calls_of_GenId ops)) (2 ^ 32))
        as [L|G]; [exact L|].
      exfalso. apply (ids_from_0_repeat (calls_of_GenId ops)); [lia|].
      exact N.
    + apply ids_from_0_NoDup.
Qed.

Lemma GenId_int_overflow_witness :
  strictly_increasing (fst (run [OpGenId; OpGenId; OpGenId] acceptor0)) /\
  _next_id (snd (run [OpGenId; OpGenId; OpGenId] acceptor0)) = 3.
Proof.
  destruct (GenId_int_overflow os_fresh acceptor0
              (mkOS [104; 108] [] [call_socket 100]) eq_refl
              [OpGenId; OpGenId; OpGenId]) as (_ & E & _ & I & _).
  split.
  - apply I. vm_compute. discriminate.
  - apply E. vm_compute. discriminate.
Defined.

(** ** The handler slot *)

Lemma run_handler ops : forall s,
  _onAccepted (snd (run ops s)) = last_handler ops (_onAccepted s).
Proof.
  induction ops as [|[|h] ops IH]; intros s; cbn [run last_handler].
  - reflexivity.
  - unfold GenId.
    specialize (IH (mkServerSocket (listen_fd s) (_onAccepted s)
                      (wrap_int (_next_id s + 1)))).
    destruct (run ops _) as [ids s2]. exact IH.
  - rewrite IH. reflexivity.
Qed.

Lemma last_handler_snoc ops h : forall d,
  last_handler (ops ++ [OpOnAccept h]) d = Some h.
Proof.
  induction ops as [|[|h'] ops IH]; intros d; cbn; auto.
Qed.

(** C8: the acceptor has one slot for the handler, and [OnAccept]
    overwrites it: after one call the slot holds the handler given, a
    second call forgets the first, and after any sequence of calls on the
    acceptor the slot holds the handler of the most recent [OnAccept]. *)
Theorem OnAccept_last_registration_wins :
  (forall s h, _onAccepted (OnAccept s h) = Some h) /\
  (forall s h1 h2, OnAccept (OnAccept s h1) h2 = OnAccept s h2) /\
  (forall ops s,
     _onAccepted (snd (run ops s)) = last_handler ops (_onAccepted s)) /\
  (forall ops h s,
     _onAccepted (snd (run (ops ++ [OpOnAccept h]) s)) = Some h).
Proof.
  split; [reflexivity|]. split; [reflexivity|].
  split; [intros; apply run_handler|].
  intros ops h s. rewrite run_handler. apply last_handler_snoc.
Qed.

(** ** Handling a completed accept *)




Example _OnAccept_sample_log :
  let s := OnAccept acceptor0 noop_handler in
  let io' := mkAcceptIOContext (mkBase OpType.Accept) 104
               (repeat x00 sizeof_buf) in
  log (final_os (_OnAccept false 4 s io_completed
                   (mkOS [104; 108] [] [call_socket 100]))) =
    [call_socket 100;
     call_socket 104;
     CallAcceptEx (Accept_args io' 100) io_pending;
     CallHandler (mkClientSocket 0 112 addr_a addr_b)].
Proof. reflexivity. Qed.

Example _OnAccept_sample_exhausted :
  _OnAccept false 4 (OnAccept acceptor0 noop_handler) io_completed
    (mkOS [] [] [call_socket 100]) =
  Aborted (mkOS [] [] [call_socket 100; call_socket INVALID_SOCKET]).
Proof. reflexivity. Qed.

(** * Further properties of the accept contexts *)

Lemma AcceptIOContext_new_valid ndebug pool ans lg s :
  s <> INVALID_SOCKET ->
  AcceptIOContext_new ndebug (mkOS (s :: pool) ans lg) =
    Returned (mkAcceptIOContext (mkBase OpType.Accept) s (repeat x00 sizeof_buf))
      (mkOS pool ans (lg ++ [call_socket s])).
Proof.
  intros Hs. rewrite AcceptIOContext_new_run. cbv zeta.
  cbn [sock_pool hd tl accept_answers log record_call].
  apply Z.eqb_neq in Hs. rewrite Hs, orb_true_r. reflexivity.
Qed.

Lemma NoDup_firstn {A} n (l : list A) : NoDup l -> NoDup (firstn n l).
Proof.
  intros H. rewrite <- (firstn_skipn n l) in H.
  apply NoDup_app_remove_r in H. exact H.
Qed.

Lemma new_contexts_run ndebug n : forall w,
  (n <= length (sock_pool w))%nat ->
  Forall valid_socket (firstn n (sock_pool w)) ->
  exists ios,
    new_contexts ndebug n w =
      Returned ios
        (mkOS (skipn n (sock_pool w)) (accept_answers w)
           (log w ++ map call_socket (firstn n (sock_pool w)))) /\
    map fd ios = firstn n (sock_pool w) /\
    Forall (fun io => length (buf io) = sizeof_buf /\
                      optype (base io) = OpType.Accept) ios.
Proof.
  induction n as [|n IH]; intros [pool ans lg] Hlen Hv;
    cbn [sock_pool accept_answers log] in *.
  - exists []. cbn. rewrite app_nil_r. auto.
  - destruct pool as [|s pool]; [cbn in Hlen; lia|].
    cbn [firstn skipn length map] in *.
    inversion Hv as [|? ? Hs Hrest]; subst.
    destruct (IH (mkOS pool ans (lg ++ [call_socket s]))) as (ios & E & F & B).
    { cbn. lia. }
    { exact Hrest. }
    cbn [sock_pool accept_answers log] in E, F.
    eexists. cbn [new_contexts]. unfold bind at 1.
    rewrite (AcceptIOContext_new_valid ndebug pool ans lg s Hs).
    unfold bind at 1. rewrite E. unfold ret.
    split; [|split].
    + rewrite <- app_assoc. reflexivity.
    + cbn [map fd]. rewrite F. reflexivity.
    + constructor; [|exact B]. split; [apply repeat_length|reflexivity].
Qed.

(** X1: [n] contexts constructed one after the other, while the system
    has [n] valid handles to give, own exactly the first [n] handles of
    the system, in the order given: each constructor takes one handle and
    logs one [WSASocket] call, none submits an accept, and if the system
    gives no handle twice then no two contexts share a socket.  Every
    context is tagged [OpType::Accept] and has a buffer of
    [(sizeof(SOCKADDR_IN) + 16) * 2] bytes. *)
Theorem new_contexts_own_sockets ndebug n w :
  (n <= length (sock_pool w))%nat ->
  Forall valid_socket (firstn n (sock_pool w)) ->
  exists ios w',
    new_contexts ndebug n w = Returned ios w' /\
    length ios = n /\
    map fd ios = firstn n (sock_pool w) /\
    sock_pool w' = skipn n (sock_pool w) /\
    accept_answers w' = accept_answers w /\
    log w' = log w ++ map call_socket (map fd ios) /\
    (NoDup (sock_pool w) -> NoDup (map fd ios)) /\
    Forall (fun io => length (buf io) = ((sizeof_SOCKADDR_IN + 16) * 2)%nat /\
                      optype (base io) = OpType.Accept) ios.
Proof.
  intros Hlen Hv.
  destruct (new_contexts_run ndebug n w Hlen Hv) as (ios & E & F & B).
  exists ios. eexists. split; [exact E|].
  cbn [sock_pool accept_answers log]. rewrite F.
  repeat split; try assumption.
  - rewrite <- (length_map fd), F, length_firstn. lia.
  - intros N. apply NoDup_firstn. exact N.
Qed.

Lemma new_contexts_own_sockets_witness :
  exists ios w',
    new_contexts false 3 os_fresh = Returned ios w' /\
    map fd ios = [100; 104; 108] /\
    NoDup (map fd ios).
Proof.
  destruct (new_contexts_own_sockets false 3 os_fresh) as
    (ios & w' & E & _ & F & _ & _ & _ & N & _).
  - cbn. lia.
  - repeat constructor; unfold valid_socket; discriminate.
  - exists ios, w'. split; [exact E|]. split; [exact F|].
    apply N. cbn.
    repeat constructor; cbn; intros H; repeat destruct H as [H|H];
      try discriminate H; exact H.
Defined.

(** X2: with assertions compiled in, a run of constructions stops at the
    first one the system has no valid handle for.  When the first [k]
    handles are valid and the next answer of the system is
    [INVALID_SOCKET], constructing more than [k] contexts is aborted at
    the [assert] of construction [k + 1]: the log shows the [k] sockets
    created, then the failed [WSASocket] call, and nothing after it. *)
Theorem new_contexts_aborts_at_failure k : forall n w,
  (k < n)%nat ->
  (k <= length (sock_pool w))%nat ->
  Forall valid_socket (firstn k (sock_pool w)) ->
  hd INVALID_SOCKET (skipn k (sock_pool w)) = INVALID_SOCKET ->
  new_contexts false n w =
    Aborted
      (mkOS (tl (skipn k (sock_pool w))) (accept_answers w)
         (log w ++ map call_socket (firstn k (sock_pool w))
                ++ [call_socket INVALID_SOCKET])).
Proof.
  induction k as [|k IH]; intros n [pool ans lg] Hk Hlen Hv Hh;
    cbn [sock_pool accept_answers log] in *;
    (destruct n as [|n]; [lia|]); cbn [new_contexts]; unfold bind at 1.
  - cbn [skipn firstn map app] in *.
    rewrite AcceptIOContext_new_run. cbv zeta.
    cbn [sock_pool accept_answers log record_call].
    rewrite Hh. reflexivity.
  - destruct pool as [|s pool]; [cbn in Hlen; lia|].
    cbn [firstn skipn length map] in *.
    inversion Hv as [|? ? Hs Hrest]; subst.
    rewrite (AcceptIOContext_new_valid false pool ans lg s Hs).
    unfold bind at 1.
    rewrite (IH n (mkOS pool ans (lg ++ [call_socket s])));
      cbn [sock_pool accept_answers log]; try assumption; try lia.
    rewrite <- app_assoc. reflexivity.
Qed.

Lemma new_contexts_aborts_at_failure_witness :
  new_contexts false 3 (mkOS [100; 104] [] []) =
    Aborted (mkOS [] [] [call_socket 100; call_socket 104;
                         call_socket INVALID_SOCKET]).
Proof.
  apply (new_contexts_aborts_at_failure 2 3 (mkOS [100; 104] [] [])).
  - lia.
  - cbn. lia.
  - repeat constructor; unfold valid_socket; discriminate.
  - reflexivity.
Defined.

(** X3: every context that the constructor returns, in either build,
    carries a completed accept through.  Submitted with [Accept] it adds
    one [AcceptEx] call after its own [WSASocket] call; when the system
    completes that call with two addresses, the completed context keeps
    its socket, its kind and the size of its buffer, and [GetAddresses]
    leads to exactly the two addresses. *)
Theorem constructed_context_roundtrip ndebug hdr w io w' listen local remote :
  AcceptIOContext_new ndebug w = Returned io w' ->
  (hdr <= 16)%nat ->
  is_sockaddr_in local ->
  is_sockaddr_in remote ->
  exists R b,
    log (final_os (Accept io listen w')) =
      log w ++ [call_socket (fd io); CallAcceptEx (Accept_args io listen) R] /\
    AcceptEx_complete hdr (Accept_args io listen) local remote = Some b /\
    fd (with_buf io b) = fd io /\
    optype (base (with_buf io b)) = OpType.Accept /\
    length (buf (with_buf io b)) = sizeof_buf /\
    deref_SOCKADDR_IN (with_buf io b)
      (fst (GetAddresses hdr (with_buf io b))) = local /\
    deref_SOCKADDR_IN (with_buf io b)
      (snd (GetAddresses hdr (with_buf io b))) = remote.
Proof.
  rewrite AcceptIOContext_new_run. cbv zeta.
  destruct (ndebug || _); [|discriminate].
  intros H Hh Hl Hr. injection H as <- <-.
  set (io := mkAcceptIOContext _ _ _).
  assert (Hb : length (buf io) = sizeof_buf) by reflexivity.
  exists (hd io_pending (accept_answers w)), (filled hdr io local remote).
  split.
  { rewrite Accept_run. cbv zeta.
    cbn [final_os log record_call sock_pool accept_answers].
    rewrite <- app_assoc. reflexivity. }
  split; [apply AcceptEx_complete_Accept; assumption|].
  split; [reflexivity|]. split; [reflexivity|].
  split; [apply (filled_length hdr Hh io Hb local remote Hl Hr)|].
  unfold deref_SOCKADDR_IN, GetAddresses, WSA_GetAcceptExSockAddrs.
  cbn [fst snd buf with_buf].
  split.
  - apply (filled_local hdr Hh io Hb local remote Hl Hr).
  - apply (filled_remote hdr Hh io Hb local remote Hl Hr).
Qed.

Lemma constructed_context_roundtrip_witness :
  exists io w' R b,
    AcceptIOContext_new false os_fresh = Returned io w' /\
    log (final_os (Accept io 96 w')) =
      [call_socket 100; CallAcceptEx (Accept_args io 96) R] /\
    AcceptEx_complete 4 (Accept_args io 96) addr_a addr_b = Some b /\
    deref_SOCKADDR_IN (with_buf io b)
      (snd (GetAddresses 4 (with_buf io b))) = addr_b.
Proof.
  destruct (constructed_context_roundtrip false 4 os_fresh _ _ 96
              addr_a addr_b eq_refl) as (R & b & L & C & _ & _ & _ & _ & E).
  - lia.
  - reflexivity.
  - reflexivity.
  - do 2 eexists. exists R, b.
    split; [reflexivity|]. split; [exact L|]. split; [exact C|exact E].
Defined.

(** X4: on a buffer of the declared size, the two pointers of
    [GetAddresses] stay inside the buffer exactly when the system keeps
    its prefix within the 16 spare bytes of a slot.  Then the local
    address lies wholly in the first slot, the remote address wholly in
    the second (so the two do not overlap), and reading a [SOCKADDR_IN]
    through either pointer gives [sizeof(SOCKADDR_IN)] bytes of the
    buffer. *)
Theorem GetAddresses_in_bounds hdr io :
  length (buf io) = sizeof_buf ->
  ((hdr <= 16)%nat <->
   (snd (GetAddresses hdr io) + sizeof_SOCKADDR_IN <= length (buf io))%nat) /\
  ((hdr <= 16)%nat ->
   (fst (GetAddresses hdr io) + sizeof_SOCKADDR_IN <= addr_slot)%nat /\
   (addr_slot <= snd (GetAddresses hdr io))%nat /\
   length (deref_SOCKADDR_IN io (fst (GetAddresses hdr io)))
     = sizeof_SOCKADDR_IN /\
   length (deref_SOCKADDR_IN io (snd (GetAddresses hdr io)))
     = sizeof_SOCKADDR_IN).
Proof.
  intros Hb.
  unfold GetAddresses, WSA_GetAcceptExSockAddrs, deref_SOCKADDR_IN, read_bytes.
  cbn [fst snd]. rewrite !length_firstn, !length_skipn, Hb.
  change sizeof_SOCKADDR_IN with 16%nat.
  change sizeof_buf with 64%nat. change addr_slot with 32%nat.
  split; [split|]; intros; lia.
Qed.

Lemma GetAddresses_in_bounds_witness :
  (fst (GetAddresses 4 io_sample) + sizeof_SOCKADDR_IN <= addr_slot)%nat /\
  (addr_slot <= snd (GetAddresses 4 io_sample))%nat /\
  (snd (GetAddresses 4 io_sample) + sizeof_SOCKADDR_IN
     <= length (buf io_sample))%nat.
Proof.
  destruct (GetAddresses_in_bounds 4 io_sample eq_refl) as [[B _] I].
  destruct I as (I1 & I2 & _); [lia|].
  split; [exact I1|]. split; [exact I2|]. apply B. lia.
Defined.

(** X5: in a build with [NDEBUG] nothing stands between a failed
    allocation and the submission.  When the system answers
    [INVALID_SOCKET], the constructor returns a context whose [fd] is
    [INVALID_SOCKET], and [Accept] on that context hands
    [INVALID_SOCKET] to [AcceptEx] as the accept socket: [Accept] itself
    checks nothing. *)
Theorem NDEBUG_submits_invalid_socket w listen :
  hd INVALID_SOCKET (sock_pool w) = INVALID_SOCKET ->
  exists io w' R,
    AcceptIOContext_new true w = Returned io w' /\
    fd io = INVALID_SOCKET /\
    log (final_os (Accept io listen w')) =
      log w ++ [call_socket INVALID_SOCKET;
                CallAcceptEx (Accept_args io listen) R] /\
    sAcceptSocket (Accept_args io listen) = INVALID_SOCKET.
Proof.
  intros H. rewrite AcceptIOContext_new_run. cbv zeta.
  cbn [orb]. rewrite H.
  do 2 eexists. exists (hd io_pending (accept_answers w)).
  split; [reflexivity|]. split; [reflexivity|].
  split; [|reflexivity].
  rewrite Accept_run. cbv zeta.
  cbn [final_os log record_call sock_pool accept_answers].
  rewrite <- app_assoc. reflexivity.
Qed.

Lemma NDEBUG_submits_invalid_socket_witness :
  exists io w' R,
    AcceptIOContext_new true os_exhausted = Returned io w' /\
    fd io = INVALID_SOCKET /\
    log (final_os (Accept io 96 w')) =
      [call_socket INVALID_SOCKET; CallAcceptEx (Accept_args io 96) R].
Proof.
  destruct (NDEBUG_submits_invalid_socket os_exhausted 96 eq_refl)
    as (io & w' & R & E & F & L & _).
  exists io, w', R. split; [exact E|]. split; [exact F|exact L].
Defined.

(** ** What the [int] result of [GenId] allows *)

Lemma gen_ids_length gen n : forall s, length (gen_ids gen n s) = n.
Proof.
  induction n as [|n IH]; intros s; cbn; [reflexivity|]. now rewrite IH.
Qed.

Lemma gen_ids_In gen n : forall s x,
  In x (gen_ids gen n s) -> exists t, x = fst (gen t).
Proof.
  induction n as [|n IH]; intros s x; cbn; [tauto|].
  intros [<-|H]; [now exists s|]. exact (IH _ _ H).
Qed.

Lemma int_range_NoDup_bound l :
  NoDup l ->
  (forall x, In x l -> INT_MIN <= x <= INT_MAX) ->
  Z.of_nat (length l) <= 2 ^ 32.
Proof.
  intros N R.
  pose (all := map (fun k => INT_MIN + Z.of_nat k)
                 (seq 0 (Z.to_nat (2 ^ 32)))).
  assert (I : incl l all).
  { intros x Hx. apply R in Hx. unfold INT_MIN, INT_MAX in Hx.
    apply in_map_iff. exists (Z.to_nat (x - INT_MIN)).
    unfold INT_MIN. split; [lia|]. apply in_seq. lia. }
  pose proof (NoDup_incl_length N I) as L.
  unfold all in L. rewrite length_map, length_seq in L. lia.
Qed.

(** X6: [GenId] is declared to return [int].  Whatever its body does with
    the acceptor, if every id it returns is an [int], then a run of calls
    whose ids are pairwise different, and so also a run whose ids increase
    strictly, is at most [2^32] calls long. *)
Theorem int_ids_are_reused gen n s :
  (forall t, INT_MIN <= fst (gen t) <= INT_MAX) ->
  (NoDup (gen_ids gen n s) -> Z.of_nat n <= 2 ^ 32) /\
  (strictly_increasing (gen_ids gen n s) -> Z.of_nat n <= 2 ^ 32).
Proof.
  intros R.
  assert (B : NoDup (gen_ids gen n s) -> Z.of_nat n <= 2 ^ 32).
  { intros N. rewrite <- (gen_ids_length gen n s).
    apply int_range_NoDup_bound; [exact N|].
    intros x Hx. apply gen_ids_In in Hx. destruct Hx as [t ->]. apply R. }
  split; [exact B|].
  intros I. apply B. apply strictly_increasing_NoDup. exact I.
Qed.

Lemma int_ids_are_reused_witness :
  NoDup (gen_ids (fun t => (wrap_int (_next_id t), snd (GenId t))) 3 acceptor0) /\
  3 <= 2 ^ 32.
Proof.
  assert (N : NoDup (gen_ids (fun t => (wrap_int (_next_id t), snd (GenId t)))
                       3 acceptor0)).
  { repeat constructor; cbn; intros H; repeat destruct H as [H|H];
      try discriminate H; exact H. }
  split; [exact N|].
  apply (proj1 (int_ids_are_reused
                  (fun t => (wrap_int (_next_id t), snd (GenId t)))
                  3 acceptor0
                  (fun t => wrap_int_range (_next_id t))) N).
Defined.

(** ** Submitting several contexts *)

Lemma next_answers_S n w :
  next_answers (S n) w =
    hd io_pending (accept_answers w)
      :: next_answers n (mkOS (sock_pool w) (tl (accept_answers w)) (log w)).
Proof.
  unfold next_answers. destruct w as [pool [|r ans] lg];
    cbn [accept_answers hd tl firstn length app].
  - rewrite !Nat.sub_0_r, firstn_nil. reflexivity.
  - reflexivity.
Qed.

(** X7: submitting contexts one after the other makes one [AcceptEx]
    call per context and no other call, in the order of the contexts,
    each with the socket and the buffer of its own context and the same
    layout.  The submissions take no handle from the system; each
    returns the answer the system gave to its own call. *)
Theorem submit_all_log ios listen : forall w,
  exists w',
    submit_all ios listen w =
      Returned (map WSARet_of_bool (next_answers (length ios) w)) w' /\
    log w' =
      log w ++ map (fun p => CallAcceptEx (Accept_args (fst p) listen) (snd p))
                 (combine ios (next_answers (length ios) w)) /\
    sock_pool w' = sock_pool w /\
    accept_answers w' = skipn (length ios) (accept_answers w).
Proof.
  induction ios as [|io ios IH]; intros w.
  - exists w. cbn. rewrite app_nil_r. auto.
  - cbn [submit_all length]. unfold bind at 1.
    rewrite Accept_run. cbv zeta.
    set (w1 := record_call _ _).
    destruct (IH w1) as (w' & E & L & P & A).
    exists w'. unfold bind at 1. rewrite E. unfold ret.
    rewrite next_answers_S.
    assert (N : next_answers (length ios) w1 =
                next_answers (length ios)
                  (mkOS (sock_pool w) (tl (accept_answers w)) (log w)))
      by reflexivity.
    rewrite N in *. clear N.
    split; [reflexivity|].
    split; [|split].
    + rewrite L. subst w1. cbn [log record_call combine map fst snd].
      rewrite <- app_assoc. reflexivity.
    + rewrite P. reflexivity.
    + rewrite A. subst w1. cbn [accept_answers record_call].
      destruct (accept_answers w); [now rewrite skipn_nil|reflexivity].
Qed.
